(** * value-mapper-vue: the mapping store and the path generators

    A shallow embedding of [lib/context.ts] (the injection-state store behind
    [ValueMapperRoot], and the path helpers of [useConnectionUtils]) and of
    [lib/utils.ts] ([omit], [generateBezierPath], [generateSmoothStepPath]).

    The store keeps three reactive cells that matter here: the host's
    [mapping] object, [isDragging] and [dragSource].  Every command of the
    store is a function from store states to store states; the DOM side of
    the store ([root], [nodes], [width], [height]) is never read by the
    commands and is left out. *)

From Stdlib Require Import List String Ascii Bool NArith ZArith Lia Sorted.
From Stdlib Require Import Floats DecimalString.
Import ListNotations.

Local Open Scope string_scope.

(** ** The JavaScript values the code relies on *)

Module Js.

(** A plain object of type [Record<string, string>]: its own enumerable
    string-keyed properties, listed in the order in which
    [OrdinaryOwnPropertyKeys] reports them (array-index keys in ascending
    numeric order, then every other key in order of creation). *)
Definition object := list (string * string).

Definition digit (c : ascii) : option N :=
  let n := N_of_ascii c in
  if ((48 <=? n) && (n <=? 57))%N then Some (n - 48)%N else None.

Fixpoint digits (s : string) (acc : N) : option N :=
  match s with
  | EmptyString => Some acc
  | String c s' =>
      match digit c with
      | Some d => digits s' (10 * acc + d)%N
      | None => None
      end
  end.

(** A property key is an array index when it is the canonical decimal
    numeral of an integer between 0 and 2^32 - 2. *)
Definition array_index (k : string) : option N :=
  match k with
  | EmptyString => None
  | String "0" EmptyString => Some 0%N
  | String "0" _ => None
  | _ =>
      match digits k 0 with
      | Some n => if (n <? 4294967295)%N then Some n else None
      | None => None
      end
  end.

(** [precedes k k'] : a key [k] that is being created is enumerated before
    the existing key [k']. *)
Definition precedes (k k' : string) : bool :=
  match array_index k, array_index k' with
  | Some i, Some j => (i <? j)%N
  | Some _, None => true
  | None, _ => false
  end.

(** [o[k]] for an own property. *)
Fixpoint get (o : object) (k : string) : option string :=
  match o with
  | [] => None
  | (k', v) :: o' => if String.eqb k' k then Some v else get o' k
  end.

(** [CreateDataProperty(o, k, v)]: an existing property keeps its place and
    takes the new value; a new one is created. *)
Fixpoint define (o : object) (k v : string) : object :=
  match o with
  | [] => [(k, v)]
  | (k', v') :: o' =>
      if String.eqb k' k then (k, v) :: o'
      else if precedes k k' then (k, v) :: (k', v') :: o'
      else (k', v') :: define o' k v
  end.

(** [delete o[k]]. *)
Definition delete (o : object) (k : string) : object :=
  filter (fun p => negb (String.eqb (fst p) k)) o.

(** [{ ...o }]: the properties are copied in enumeration order. *)
Definition spread (o : object) : object := o.

Definition Object_entries (o : object) : list (string * string) := o.
Definition Object_keys (o : object) : list string := map fst o.
Definition Object_values (o : object) : list string := map snd o.

(** [Array.prototype.includes] on an array of strings. *)
Definition includes (l : list string) (x : string) : bool :=
  existsb (String.eqb x) l.

(** The enumeration order between two properties of one object: array
    indices ascend, and no other key comes before an array index. *)
Definition enumerated_before (a b : string * string) : Prop :=
  match array_index (fst a), array_index (fst b) with
  | Some i, Some j => (i <= j)%N
  | Some _, None => True
  | None, Some _ => False
  | None, None => True
  end.

(** What every object satisfies: no key twice, keys in enumeration order. *)
Definition well_formed (o : object) : Prop :=
  NoDup (map fst o) /\ StronglySorted enumerated_before o.

(** Truthiness of a [string | null]: [null] and the empty string are falsy. *)
Definition truthy (v : option string) : bool :=
  match v with
  | Some (String _ _) => true
  | Some EmptyString => false
  | None => false
  end.

End Js.

(** ** Numbers: [Number::toString] on IEEE 754 doubles *)

Module JsNumber.

Local Open Scope Z_scope.

(** Compares [a * 10^p] with [b * 2^q] exactly. *)
Definition compare_scaled (a p b q : Z) : comparison :=
  Z.compare (a * 10 ^ Z.max p 0 * 2 ^ Z.max (- q) 0)
            (b * 2 ^ Z.max q 0 * 10 ^ Z.max (- p) 0).

(** The integer part of [b * 2^q / 10^p]. *)
Definition floor_scaled (b q p : Z) : Z :=
  (b * 2 ^ Z.max q 0 * 10 ^ Z.max (- p) 0)
    / (2 ^ Z.max (- q) 0 * 10 ^ Z.max p 0).

(** The least [n], counting up from [n], with [m * 2^e < 10^n]. *)
Fixpoint magnitude (fuel : nat) (m e n : Z) : Z :=
  match fuel with
  | O => n
  | S fuel' =>
      match compare_scaled 1 n m e with
      | Gt => n
      | _ => magnitude fuel' m e (n + 1)
      end
  end.

(** A number below the decimal exponent of [m * 2^e], from its binary
    exponent and [log10 2 = 0.30103...]; [magnitude] starts there. *)
Definition estimate (m e : Z) : Z :=
  (Z.log2 m + e) * 30103 / 100000 - 2.

(** Does the real [s * 10^p] round to the double [m * 2^e]?  In units of
    [2^(e-2)] the double is [4m] and the reals that round to it lie between
    [4m - below] and [4m + 2], the ends included when [m] is even. *)
Definition rounds_to (m e s p : Z) : bool :=
  let below := if (m =? 2 ^ 52) && (-1074 <? e) then 1 else 2 in
  let lo := compare_scaled s p (4 * m - below) (e - 2) in
  let hi := compare_scaled s p (4 * m + 2) (e - 2) in
  if Z.even m
  then negb (match lo with Lt => true | _ => false end)
       && negb (match hi with Gt => true | _ => false end)
  else (match lo with Gt => true | _ => false end)
       && (match hi with Lt => true | _ => false end).

(** The [k]-digit numeral [s] nearest to [m * 2^e] among those that round
    to it, with the position [n] of its decimal point. *)
Definition candidate (m e n k : Z) : option (Z * Z) :=
  let p := n - k in
  let f := floor_scaled m e p in
  let pick s := if s =? 10 ^ k then (10 ^ (k - 1), n + 1) else (s, n) in
  match rounds_to m e f p, rounds_to m e (f + 1) p with
  | true, true =>
      match compare_scaled (2 * f + 1) p (2 * m) e with
      | Gt => Some (pick f)
      | Lt => Some (pick (f + 1))
      | Eq => Some (pick (if Z.even f then f else f + 1))
      end
  | true, false => Some (pick f)
  | false, true => Some (pick (f + 1))
  | false, false => None
  end.

(** The shortest numeral: the least [k] that has a candidate.  Seventeen
    digits identify every double, so the search ends with a candidate. *)
Fixpoint shortest (fuel : nat) (m e n k : Z) : Z * Z * Z :=
  match fuel with
  | O => (k, 1, n)
  | S fuel' =>
      match candidate m e n k with
      | Some (s, n') => (k, s, n')
      | None => shortest fuel' m e n (k + 1)
      end
  end.

Definition decimal (z : Z) : string :=
  NilZero.string_of_uint (N.to_uint (Z.to_N z)).

Fixpoint zeros (n : nat) : string :=
  match n with
  | O => ""
  | S n' => "0" ++ zeros n'
  end.

(** Steps 6 to 10 of [Number::toString]: the layout of the digits [s]
    ([k] of them) for the decimal point position [n]. *)
Definition layout (k s n : Z) : string :=
  let ds := decimal s in
  if (k <=? n) && (n <=? 21) then
    ds ++ zeros (Z.to_nat (n - k))
  else if (0 <? n) && (n <=? 21) then
    substring 0 (Z.to_nat n) ds ++ "." ++ substring (Z.to_nat n) (Z.to_nat (k - n)) ds
  else if (-6 <? n) && (n <=? 0) then
    "0." ++ zeros (Z.to_nat (- n)) ++ ds
  else
    let e := n - 1 in
    let es := (if e <? 0 then "-" else "+") ++ decimal (Z.abs e) in
    if k =? 1 then ds ++ "e" ++ es
    else substring 0 1 ds ++ "." ++ substring 1 (Z.to_nat (k - 1)) ds ++ "e" ++ es.

Definition finite_toString (m : positive) (e : Z) : string :=
  let n := magnitude 700 (Z.pos m) e (estimate (Z.pos m) e) in
  let '(k, s, n') := shortest 17 (Z.pos m) e n 1 in
  layout k s n'.

(** [Number::toString(x)] in radix 10, which is what a template literal
    applies to a number. *)
Definition toString (x : float) : string :=
  match Prim2SF x with
  | S754_nan => "NaN"
  | S754_zero _ => "0"
  | S754_infinity false => "Infinity"
  | S754_infinity true => "-Infinity"
  | S754_finite false m e => finite_toString m e
  | S754_finite true m e => "-" ++ finite_toString m e
  end.

End JsNumber.

(** ** lib/common.ts *)

Module Common.

Inductive NodeType := source_node | target_node.

Record Connection := {
  id : string;
  source : string;
  target : string
}.

End Common.

Import Common.

(** ** lib/utils.ts *)

Definition omit (obj : Js.object) (keys : list string) : Js.object :=
  fold_left Js.delete keys (Js.spread obj).

(** A number inside a template literal. *)
Definition str (n : float) : string := JsNumber.toString n.

Definition generateBezierPath (sx sy tx ty : float) : string :=
  let controlPointDistance := (abs (tx - sx) * 0.5)%float in
  let cx1 := (sx + controlPointDistance)%float in
  let cy1 := sy in
  let cx2 := (tx - controlPointDistance)%float in
  let cy2 := ty in
  "M " ++ str sx ++ " " ++ str sy ++ " C " ++ str cx1 ++ " " ++ str cy1
    ++ ", " ++ str cx2 ++ " " ++ str cy2 ++ ", " ++ str tx ++ " " ++ str ty.

(** [radius] defaults to 2 when the argument is left out. *)
Definition generateSmoothStepPath (sx sy tx ty : float)
    (radius : option float) : string :=
  let radius := match radius with Some r => r | None => 2%float end in
  let midX := ((sx + tx) / 2)%float in
  let direction := if (sy <? ty)%float then 1%float else (-1)%float in
  String.concat " " [
    "M " ++ str sx ++ " " ++ str sy;
    "H " ++ str (midX - radius)%float;
    "Q " ++ str midX ++ "," ++ str sy ++ " "
         ++ str midX ++ "," ++ str (sy + direction * radius)%float;
    "V " ++ str (ty - direction * radius)%float;
    "Q " ++ str midX ++ "," ++ str ty ++ " "
         ++ str (midX + radius)%float ++ "," ++ str ty;
    "H " ++ str tx
  ].

(** ** lib/context.ts: the store *)

Record Store := {
  mapping : Js.object;
  isDragging : bool;
  dragSource : option string
}.

(** The state right after [createInjectionState] ran for the host's mapping. *)
Definition create (mapping0 : Js.object) : Store :=
  {| mapping := mapping0; isDragging := false; dragSource := None |}.

Definition connections (st : Store) : list Connection :=
  map (fun '(source, target) =>
         {| id := source ++ "->" ++ target;
            source := source;
            target := target |})
      (Js.Object_entries (mapping st)).

Definition addConnection (st : Store) (source target : string) : Store :=
  {| mapping := Js.define (Js.spread (mapping st)) source target;
     isDragging := isDragging st;
     dragSource := dragSource st |}.

Definition removeConnection (st : Store) (source : string) : Store :=
  {| mapping := omit (mapping st) [source];
     isDragging := isDragging st;
     dragSource := dragSource st |}.

Definition startConnection (st : Store) (sourceId : string) : Store :=
  {| mapping := mapping st;
     isDragging := true;
     dragSource := Some sourceId |}.

Definition endConnection (st : Store) (targetId : string) : Store :=
  let st1 :=
    if Js.truthy (dragSource st) then
      match dragSource st with
      | Some s => addConnection st s targetId
      | None => st
      end
    else st in
  {| mapping := mapping st1; isDragging := false; dragSource := None |}.

Definition cancelConnection (st : Store) : Store :=
  {| mapping := mapping st; isDragging := false; dragSource := None |}.

(** [nodeType] defaults to ["source"] when the argument is left out. *)
Definition hasConnection (st : Store) (nodeId : string)
    (nodeType : option NodeType) : bool :=
  match nodeType with
  | None | Some source_node =>
      Js.includes (Js.Object_keys (mapping st)) nodeId
  | Some target_node =>
      Js.includes (Js.Object_values (mapping st)) nodeId
  end.

(** *** useConnectionUtils: anchors and the arrow head *)

Record Rect := {
  width : float;
  height : float;
  left : float;
  right : float;
  top : float;
  bottom : float
}.

Record Point := { x : float; y : float }.

Module Coords.

Record t := { source : Point; target : Point }.

End Coords.

(** The computed [coords]: the right centre of the source node and the left
    centre of the target node, or [null] while a rectangle is missing. *)
Definition coords (sourceRect targetRect : option Rect) : option Coords.t :=
  match sourceRect, targetRect with
  | Some s, Some t =>
      Some {| Coords.source :=
                {| x := right s; y := (top s + height s / 2)%float |};
              Coords.target :=
                {| x := left t; y := (top t + height t / 2)%float |} |}
  | _, _ => None
  end.

(** [size] defaults to 4 and [offset] to 0. *)
Definition getArrowPath (coords : option Coords.t)
    (size offset : option float) : string :=
  let size := match size with Some v => v | None => 4%float end in
  let offset := match offset with Some v => v | None => 0%float end in
  match coords with
  | None => ""
  | Some c =>
      let tx := (x (Coords.target c) - offset)%float in
      let ty := y (Coords.target c) in
      let ax := (tx - size)%float in
      let ay := (ty - size / 2)%float in
      let bx := (tx - size)%float in
      let by_ := (ty + size / 2)%float in
      "M " ++ str tx ++ " " ++ str ty ++ " L " ++ str ax ++ " " ++ str ay
        ++ " L " ++ str bx ++ " " ++ str by_ ++ " Z"
  end.

(** *** Sequences of store calls *)

Inductive Command :=
| AddConnection (source target : string)
| RemoveConnection (source : string)
| StartConnection (sourceId : string)
| EndConnection (targetId : string)
| CancelConnection.

Definition step (st : Store) (c : Command) : Store :=
  match c with
  | AddConnection s t => addConnection st s t
  | RemoveConnection s => removeConnection st s
  | StartConnection s => startConnection st s
  | EndConnection t => endConnection st t
  | CancelConnection => cancelConnection st
  end.

Definition run (st : Store) (cs : list Command) : Store := fold_left step cs st.

(** The two commands that only touch the mapping. *)
Inductive Call :=
| Add (source target : string)
| Remove (source : string).

Definition command_of (c : Call) : Command :=
  match c with
  | Add s t => AddConnection s t
  | Remove s => RemoveConnection s
  end.

Definition calls (st : Store) (cs : list Call) : Store :=
  run st (map command_of cs).

Definition call_source (c : Call) : string :=
  match c with
  | Add s _ => s
  | Remove s => s
  end.

(** The invariant of the drag state: a drag source is only ever recorded
    while a drag is in progress. *)
Definition drag_invariant (st : Store) : Prop :=
  dragSource st <> None -> isDragging st = true.

(** *** The order the specification speaks of

    The specification says that the mapping lists its entries in the order
    in which they were inserted.  [inserted] replays a sequence of calls on an
    association list that behaves that way: a source that is new goes to the
    end, a source that is already there keeps its place. *)

Fixpoint put_last (l : list (string * string)) (k v : string)
    : list (string * string) :=
  match l with
  | [] => [(k, v)]
  | (k', v') :: l' =>
      if String.eqb k' k then (k, v) :: l' else (k', v') :: put_last l' k v
  end.

Definition inserted_step (l : list (string * string)) (c : Call)
    : list (string * string) :=
  match c with
  | Add s t => put_last l s t
  | Remove s => Js.delete l s
  end.

Definition inserted (l : list (string * string)) (cs : list Call)
    : list (string * string) :=
  fold_left inserted_step cs l.

(** The entries whose source is not an array index. *)
Definition plain (e : string * string) : bool :=
  match Js.array_index (fst e) with
  | None => true
  | Some _ => false
  end.

Definition view (e : string * string) : Connection :=
  {| id := fst e ++ "->" ++ snd e; source := fst e; target := snd e |}.

(** *** Path data, to state what the generators draw

    The commands of SVG path data that the generators use, and their text in
    the layout the generators give them. *)

Inductive PathCommand :=
| MoveTo (p : Point)
| CurveTo (c1 c2 p : Point)
| QuadraticTo (c p : Point)
| HorizontalTo (x : float)
| VerticalTo (y : float)
| LineTo (p : Point)
| ClosePath.

Definition command_text (c : PathCommand) : string :=
  match c with
  | MoveTo p => "M " ++ str (x p) ++ " " ++ str (y p)
  | CurveTo c1 c2 p =>
      "C " ++ str (x c1) ++ " " ++ str (y c1) ++ ", "
           ++ str (x c2) ++ " " ++ str (y c2) ++ ", "
           ++ str (x p) ++ " " ++ str (y p)
  | QuadraticTo c p =>
      "Q " ++ str (x c) ++ "," ++ str (y c) ++ " "
           ++ str (x p) ++ "," ++ str (y p)
  | HorizontalTo x => "H " ++ str x
  | VerticalTo y => "V " ++ str y
  | LineTo p => "L " ++ str (x p) ++ " " ++ str (y p)
  | ClosePath => "Z"
  end.

Definition path_text (cs : list PathCommand) : string :=
  String.concat " " (map command_text cs).

(** ** lib/context.ts: the rest of the composables *)

(** *** useNode: what a node reports and what its event handlers do

    The handlers are modelled by their effect on the store; what they do to
    the event itself ([preventDefault], [stopPropagation]) is left out. *)

Definition isConnected (st : Store) (id : string) (type : NodeType) : bool :=
  hasConnection st id (Some type).

Definition isDragSource (st : Store) (id : string) : bool :=
  isDragging st
  && match dragSource st with
     | Some s => String.eqb s id
     | None => false
     end.

Definition onMouseDown (st : Store) (id : string) (type : NodeType) : Store :=
  match type with
  | source_node =>
      if negb (hasConnection st id (Some source_node))
      then startConnection st id
      else st
  | target_node => st
  end.

Definition onMouseUp (st : Store) (id : string) (type : NodeType) : Store :=
  match type with
  | target_node => endConnection st id
  | source_node => st
  end.



(** *** useConnectionUtils and useConnectionPreview: the paths

    Both composables define [getBezierPath], [getSmoothStepPath] and
    [getArrowPath] with the same bodies over their own [coords]; they are
    modelled once, as functions of the coordinates. *)

Definition getBezierPath (coords : option Coords.t) : string :=
  match coords with
  | None => ""
  | Some c =>
      let sx := x (Coords.source c) in
      let sy := y (Coords.source c) in
      let tx := x (Coords.target c) in
      let ty := y (Coords.target c) in
      generateBezierPath sx sy tx ty
  end.

(** [radius] defaults to 2. *)
Definition getSmoothStepPath (coords : option Coords.t)
    (radius : option float) : string :=
  let radius := match radius with Some r => r | None => 2%float end in
  match coords with
  | None => ""
  | Some c =>
      let sx := x (Coords.source c) in
      let sy := y (Coords.source c) in
      let tx := x (Coords.target c) in
      let ty := y (Coords.target c) in
      generateSmoothStepPath sx sy tx ty (Some radius)
  end.

(** Truthiness of a number: zero, of either sign, and NaN are falsy. *)
Definition truthy_number (n : float) : bool :=
  negb ((n =? 0)%float || negb (n =? n)%float).

(** The [sourceRect] of the preview.  [root] is the bounding rectangle of
    the root element ([None] while it is not mounted) and [nodeRect id] that
    of the element registered under [id] ([None] when there is none).  The
    third test of the guard, [!isDragging], negates the ref itself and not
    its value, so it never fires. *)
Definition previewSourceRect (st : Store) (root : option Rect)
    (nodeRect : string -> option Rect) : option Rect :=
  match dragSource st, root with
  | Some s, Some offset =>
      if Js.truthy (Some s) then
        match nodeRect s with
        | None => None
        | Some rect =>
            Some {| width := width rect;
                    height := height rect;
                    left := (left rect - left offset)%float;
                    right := (right rect - left offset)%float;
                    top := (top rect - top offset)%float;
                    bottom := (bottom rect - top offset)%float |}
        end
      else None
  | _, _ => None
  end.

(** The [coords] of the preview, from [sourceRect] and the pointer position
    [elementX], [elementY] inside the root element. *)
Definition previewCoords (sourceRect : option Rect) (elementX elementY : float)
    : option Coords.t :=
  match sourceRect with
  | None => None
  | Some r =>
      if truthy_number elementX && truthy_number elementY then
        Some {| Coords.source :=
                  {| x := right r; y := (top r + height r / 2)%float |};
                Coords.target := {| x := elementX; y := elementY |} |}
      else None
  end.

(** *** What the properties speak of *)

(** Does the string contain the character [-]? *)
Definition has_dash (s : string) : bool :=
  existsb (Ascii.eqb "-") (list_ascii_of_string s).

(** * Properties *)

(** ** Objects: reading after writing *)

Section ObjectLaws.

Variable o : Js.object.
Variables k v : string.

Lemma get_define_same : Js.get (Js.define o k v) k = Some v.
Proof.
  induction o as [|[k' v'] o' IH]; simpl.
  - now rewrite String.eqb_refl.
  - destruct (String.eqb k' k) eqn:E; simpl.
    + now rewrite String.eqb_refl.
    + destruct (Js.precedes k k'); simpl.
      * now rewrite String.eqb_refl.
      * now rewrite E.
Qed.

Lemma get_define_other (x : string) :
  x <> k -> Js.get (Js.define o k v) x = Js.get o x.
Proof.
  intros Hx. apply String.eqb_neq in Hx. rewrite String.eqb_sym in Hx.
  induction o as [|[k' v'] o' IH]; simpl.
  - now rewrite Hx.
  - destruct (String.eqb k' k) eqn:E; simpl.
    + apply String.eqb_eq in E; subst k'. now rewrite Hx.
    + destruct (Js.precedes k k'); simpl.
      * now rewrite Hx.
      * now rewrite IH.
Qed.

Lemma get_delete_same : Js.get (Js.delete o k) k = None.
Proof.
  unfold Js.delete.
  induction o as [|[k' v'] o' IH]; simpl; auto.
  destruct (String.eqb k' k) eqn:E; simpl; auto.
  now rewrite E.
Qed.

Lemma get_delete_other (x : string) :
  x <> k -> Js.get (Js.delete o k) x = Js.get o x.
Proof.
  intros Hx. unfold Js.delete.
  induction o as [|[k' v'] o' IH]; simpl; auto.
  destruct (String.eqb k' k) eqn:E; simpl.
  - apply String.eqb_eq in E; subst k'.
    apply not_eq_sym, String.eqb_neq in Hx. now rewrite Hx.
  - now rewrite IH.
Qed.

Lemma delete_absent : Js.get o k = None -> Js.delete o k = o.
Proof.
  unfold Js.delete.
  induction o as [|[k' v'] o' IH]; simpl; auto.
  destruct (String.eqb k' k) eqn:E; simpl; [discriminate|].
  intros H. now rewrite IH.
Qed.

End ObjectLaws.

(** ** Objects: keys stay unique and in enumeration order *)


Lemma precedes_enumerated (a b : string * string) :
  Js.precedes (fst b) (fst a) = false <-> Js.enumerated_before a b.
Proof.
  unfold Js.precedes, Js.enumerated_before.
  destruct (Js.array_index (fst a)) as [i|], (Js.array_index (fst b)) as [j|];
    try (split; [trivial | reflexivity]); try (split; [discriminate | tauto]).
  rewrite N.ltb_ge. tauto.
Qed.

Lemma precedes_before (k : string) (v : string) (a b : string * string) :
  Js.precedes k (fst a) = true ->
  Js.enumerated_before a b ->
  Js.enumerated_before (k, v) b /\ k <> fst b.
Proof.
  unfold Js.precedes, Js.enumerated_before; simpl. intros Hp Hab.
  split.
  - destruct (Js.array_index k) as [i|]; [|discriminate].
    destruct (Js.array_index (fst a)) as [j|], (Js.array_index (fst b)) as [j'|];
      trivial; try contradiction.
    apply N.ltb_lt in Hp. lia.
  - intros ->.
    destruct (Js.array_index (fst b)) as [i|]; [|discriminate].
    destruct (Js.array_index (fst a)) as [j|]; [|contradiction].
    apply N.ltb_lt in Hp. lia.
Qed.

Lemma in_define (o : Js.object) (k v : string) (e : string * string) :
  In e (Js.define o k v) -> e = (k, v) \/ In e o.
Proof.
  induction o as [|[k' v'] o' IH]; simpl.
  - intros [<-|[]]; auto.
  - destruct (String.eqb k' k).
    + simpl. intros [<-|H]; auto.
    + destruct (Js.precedes k k'); simpl.
      * intros [<-|[<-|H]]; auto.
      * intros [<-|H]; auto. destruct (IH H); auto.
Qed.

Lemma define_well_formed (o : Js.object) (k v : string) :
  Js.well_formed o -> Js.well_formed (Js.define o k v).
Proof.
  unfold Js.well_formed.
  induction o as [|[k' v'] o' IH]; simpl; intros [Hnd Hs].
  - split; repeat constructor. intros [].
  - inversion Hnd as [|? ? Hk' Hnd']; subst.
    inversion Hs as [|? ? Hs' Hall]; subst.
    destruct (String.eqb k' k) eqn:E.
    + apply String.eqb_eq in E; subst k'. split; simpl.
      * now constructor.
      * constructor; trivial.
    + destruct (Js.precedes k k') eqn:P.
      * assert (Hhead : Js.enumerated_before (k, v) (k', v')).
        { apply precedes_enumerated; simpl.
          unfold Js.precedes in *.
          destruct (Js.array_index k) as [i|]; [|discriminate].
          destruct (Js.array_index k') as [j|]; trivial.
          apply N.ltb_lt in P. apply N.ltb_ge. lia. }
        assert (Htail : Forall (fun b => Js.enumerated_before (k, v) b
                                         /\ k <> fst b) o').
        { rewrite Forall_forall in *. intros b Hb.
          apply (precedes_before k v (k', v') b); auto. }
        split; simpl.
        -- constructor; [|now constructor].
           simpl. intros [H|H].
           ++ apply String.eqb_neq in E. congruence.
           ++ apply in_map_iff in H as [b [Hb1 Hb2]].
              rewrite Forall_forall in Htail.
              destruct (Htail b Hb2) as [_ Hne]. congruence.
        -- constructor; [now constructor|].
           constructor; trivial.
           eapply Forall_impl; [|exact Htail]. simpl. tauto.
      * destruct (IH (conj Hnd' Hs')) as [IHnd IHs].
        split; simpl.
        -- constructor; trivial.
           intros H. apply in_map_iff in H as [b [Hb1 Hb2]].
           destruct (in_define _ _ _ _ Hb2) as [->|Hb].
           ++ simpl in Hb1. apply String.eqb_neq in E. congruence.
           ++ apply Hk'. apply in_map_iff. now exists b.
        -- constructor; trivial.
           rewrite Forall_forall in *. intros b Hb.
           destruct (in_define _ _ _ _ Hb) as [->|Hb']; auto.
           now apply precedes_enumerated.
Qed.

Lemma delete_well_formed (o : Js.object) (k : string) :
  Js.well_formed o -> Js.well_formed (Js.delete o k).
Proof.
  unfold Js.well_formed, Js.delete.
  induction o as [|[k' v'] o' IH]; simpl; intros [Hnd Hs]; auto.
  inversion Hnd as [|? ? Hk' Hnd']; subst.
  inversion Hs as [|? ? Hs' Hall]; subst.
  destruct (IH (conj Hnd' Hs')) as [IHnd IHs].
  destruct (negb (String.eqb k' k)); auto.
  split; simpl.
  - constructor; trivial.
    intros H. apply Hk'. apply in_map_iff in H as [b [Hb1 Hb2]].
    apply filter_In in Hb2 as [Hb2 _]. apply in_map_iff. now exists b.
  - constructor; trivial.
    rewrite Forall_forall in *. intros b Hb.
    apply filter_In in Hb as [Hb _]. auto.
Qed.

Lemma calls_well_formed (cs : list Call) (st : Store) :
  Js.well_formed (mapping st) -> Js.well_formed (mapping (calls st cs)).
Proof.
  unfold calls, run. revert st.
  induction cs as [|c cs IH]; intros st Hwf; simpl; auto.
  apply IH. destruct c; simpl.
  - now apply define_well_formed.
  - now apply delete_well_formed.
Qed.

(** ** Membership queries *)

Lemma includes_In (l : list string) (x : string) :
  Js.includes l x = true <-> In x l.
Proof.
  unfold Js.includes. rewrite existsb_exists. split.
  - intros [y [Hy E]]. apply String.eqb_eq in E. now subst.
  - intros H. exists x. split; trivial. apply String.eqb_refl.
Qed.

Lemma get_Some_In (o : Js.object) (k v : string) :
  Js.get o k = Some v -> In (k, v) o.
Proof.
  induction o as [|[k' v'] o' IH]; simpl; [discriminate|].
  destruct (String.eqb k' k) eqn:E.
  - apply String.eqb_eq in E. intros [= ->]. left. now subst.
  - auto.
Qed.

Lemma In_get_Some (o : Js.object) (k v : string) :
  NoDup (map fst o) -> In (k, v) o -> Js.get o k = Some v.
Proof.
  induction o as [|[k' v'] o' IH]; simpl; [tauto|].
  intros Hnd [H|H]; inversion Hnd as [|? ? Hk' Hnd']; subst.
  - inversion H; subst. now rewrite String.eqb_refl.
  - destruct (String.eqb k' k) eqn:E; auto.
    apply String.eqb_eq in E; subst k'.
    exfalso. apply Hk'. apply in_map_iff. now exists (k, v).
Qed.

Lemma key_iff_get (o : Js.object) (x : string) :
  Js.includes (Js.Object_keys o) x = true <-> exists t, Js.get o x = Some t.
Proof.
  rewrite includes_In. unfold Js.Object_keys. split.
  - induction o as [|[k' v'] o' IH]; simpl; [tauto|].
    destruct (String.eqb k' x) eqn:E; eauto.
    intros [H|H]; auto. subst. now rewrite String.eqb_refl in E.
  - intros [t H]. apply get_Some_In in H.
    apply in_map_iff. now exists (x, t).
Qed.

Lemma value_iff_get (o : Js.object) (x : string) :
  NoDup (map fst o) ->
  Js.includes (Js.Object_values o) x = true <-> exists s, Js.get o s = Some x.
Proof.
  intros Hnd. rewrite includes_In. unfold Js.Object_values. split.
  - intros H. apply in_map_iff in H as [[s v] [Hv He]]. simpl in Hv; subst v.
    exists s. now apply In_get_Some.
  - intros [s H]. apply get_Some_In in H.
    apply in_map_iff. now exists (s, x).
Qed.

Lemma calls_snoc (st : Store) (cs : list Call) (c : Call) :
  calls st (cs ++ [c]) = step (calls st cs) (command_of c).
Proof. unfold calls, run. now rewrite map_app, fold_left_app. Qed.

Lemma get_after_call (st : Store) (c : Call) (x : string) :
  Js.get (mapping (step st (command_of c))) x
  = if String.eqb x (call_source c)
    then match c with Add _ t => Some t | Remove _ => None end
    else Js.get (mapping st) x.
Proof.
  destruct (String.eqb x (call_source c)) eqn:E.
  - apply String.eqb_eq in E; subst x. destruct c; simpl.
    + apply get_define_same.
    + apply get_delete_same.
  - apply String.eqb_neq in E. destruct c; simpl in *.
    + now apply get_define_other.
    + now apply get_delete_other.
Qed.

Lemma source_query_get (st : Store) (x : string) :
  hasConnection st x (Some source_node)
  = match Js.get (mapping st) x with Some _ => true | None => false end.
Proof.
  simpl. destruct (Js.includes (Js.Object_keys (mapping st)) x) eqn:E.
  - apply key_iff_get in E as [t ->]. reflexivity.
  - destruct (Js.get (mapping st) x) as [t|] eqn:G; trivial.
    assert (H : Js.includes (Js.Object_keys (mapping st)) x = true)
      by (apply key_iff_get; eauto).
    congruence.
Qed.

(** ** The store: drag gestures *)

Lemma truthy_nonempty (s : string) : s <> "" -> Js.truthy (Some s) = true.
Proof. destruct s; [congruence | reflexivity]. Qed.

Lemma endConnection_resets (st : Store) (t : string) :
  isDragging (endConnection st t) = false
  /\ dragSource (endConnection st t) = None.
Proof. split; reflexivity. Qed.

Lemma endConnection_commit (st : Store) (s t : string) :
  dragSource st = Some s -> s <> "" ->
  mapping (endConnection st t) = mapping (addConnection st s t).
Proof.
  intros Hs Hne. unfold endConnection. rewrite Hs.
  now rewrite (truthy_nonempty s Hne).
Qed.

(** C1, as the code has it.  While a drag from a non-empty source [s] is in
    progress, [endConnection t] commits exactly what [addConnection s t]
    commits; so [startConnection s] followed by [endConnection t] leaves [s]
    mapped to [t], whatever [s] was mapped to before (no other entry for [s]
    is left), and leaves every other source as it was.  In every state,
    dragging or not, [endConnection] leaves [isDragging = false] and
    [dragSource = null]. *)
Theorem endConnection_commits_drag_source (st : Store) (s t : string) :
  s <> "" ->
  (dragSource st = Some s ->
     mapping (endConnection st t) = mapping (addConnection st s t)
     /\ Js.get (mapping (endConnection st t)) s = Some t)
  /\ Js.get (mapping (endConnection (startConnection st s) t)) s = Some t
  /\ (Js.well_formed (mapping st) ->
      forall t',
        In (s, t') (Js.Object_entries
                      (mapping (endConnection (startConnection st s) t))) ->
        t' = t)
  /\ (forall x, x <> s ->
        Js.get (mapping (endConnection (startConnection st s) t)) x
        = Js.get (mapping st) x)
  /\ (forall st' t',
        isDragging (endConnection st' t') = false
        /\ dragSource (endConnection st' t') = None).
Proof.
  intros Hne.
  assert (Hend : mapping (endConnection (startConnection st s) t)
                 = Js.define (mapping st) s t)
    by exact (endConnection_commit (startConnection st s) s t eq_refl Hne).
  split; [|split; [|split; [|split]]].
  - intros Hs. rewrite (endConnection_commit st s t Hs Hne).
    split; [reflexivity | apply get_define_same].
  - rewrite Hend. apply get_define_same.
  - intros Hwf t' Hin. rewrite Hend in Hin.
    destruct (define_well_formed (mapping st) s t Hwf) as [Hnd _].
    apply (In_get_Some _ _ _ Hnd) in Hin.
    rewrite get_define_same in Hin. congruence.
  - intros x Hx. rewrite Hend. now apply get_define_other.
  - intros st' t'. apply endConnection_resets.
Qed.

Lemma endConnection_commits_drag_source_witness :
  "france" <> ""
  /\ Js.get (mapping (endConnection
                        (startConnection (create [("france", "rome")]) "france")
                        "paris")) "france" = Some "paris".
Proof.
  assert (Hne : "france" <> "") by discriminate.
  split; [exact Hne|].
  exact (proj1 (proj2 (endConnection_commits_drag_source
                         (create [("france", "rome")]) "france" "paris" Hne))).
Defined.

(** C1 as stated fails for the empty identifier: the guard of
    [endConnection] tests the truthiness of [dragSource], and the empty
    string is falsy, so the drag that [startConnection("")] starts is ended
    without a commit. *)
Lemma endConnection_empty_source_not_committed :
  isDragging (startConnection (create []) "") = true
  /\ dragSource (startConnection (create []) "") = Some ""
  /\ Js.get (mapping (endConnection (startConnection (create []) "") "t")) ""
     <> Some "t".
Proof. repeat split. discriminate. Qed.

(** C3.  In every state that a sequence of store commands reaches from the
    initial state, [dragSource] is non-null only while [isDragging] is true. *)
Theorem drag_invariant_reachable (mapping0 : Js.object) (cs : list Command) :
  drag_invariant (run (create mapping0) cs).
Proof.
  assert (Hinit : drag_invariant (create mapping0)) by (intros H; now elim H).
  unfold run. revert Hinit. generalize (create mapping0) as st.
  induction cs as [|c cs IH]; intros st Hst; simpl; auto.
  apply IH. destruct c; unfold drag_invariant in *; simpl; auto;
    intros H; now elim H.
Qed.

(** C8.  [startConnection s] followed at once by [cancelConnection] leaves
    the mapping as it was and the drag state idle; [cancelConnection] clears
    the drag state in every state and commits nothing. *)
Theorem start_then_cancel (st : Store) (s : string) :
  mapping (cancelConnection (startConnection st s)) = mapping st
  /\ isDragging (cancelConnection (startConnection st s)) = false
  /\ dragSource (cancelConnection (startConnection st s)) = None
  /\ mapping (cancelConnection st) = mapping st
  /\ isDragging (cancelConnection st) = false
  /\ dragSource (cancelConnection st) = None.
Proof. repeat split. Qed.

(** C9.  [removeConnection s] never fails.  When [s] is not a key it leaves
    the mapping as it was; when it is, the entry for [s] is gone afterwards
    and every other entry is kept. *)
Theorem removeConnection_deletes (st : Store) (s : string) :
  (Js.get (mapping st) s = None ->
     mapping (removeConnection st s) = mapping st)
  /\ Js.get (mapping (removeConnection st s)) s = None
  /\ (forall x, x <> s ->
        Js.get (mapping (removeConnection st s)) x = Js.get (mapping st) x)
  /\ Js.Object_entries (mapping (removeConnection st s))
     = filter (fun e => negb (String.eqb (fst e) s))
              (Js.Object_entries (mapping st)).
Proof.
  unfold removeConnection, omit, Js.spread; simpl.
  split; [|split; [|split]].
  - apply delete_absent.
  - apply get_delete_same.
  - intros x Hx. now apply get_delete_other.
  - reflexivity.
Qed.

Lemma removeConnection_deletes_witness :
  mapping (removeConnection (create [("france", "paris")]) "spain")
  = [("france", "paris")].
Proof.
  exact (proj1 (removeConnection_deletes (create [("france", "paris")]) "spain")
               eq_refl).
Defined.

(** C10.  [startConnection] and [cancelConnection] leave the mapping alone;
    [addConnection] and [removeConnection] leave [isDragging] and
    [dragSource] alone. *)
Theorem commands_frame (st : Store) (s t : string) :
  mapping (startConnection st s) = mapping st
  /\ mapping (cancelConnection st) = mapping st
  /\ isDragging (addConnection st s t) = isDragging st
  /\ dragSource (addConnection st s t) = dragSource st
  /\ isDragging (removeConnection st s) = isDragging st
  /\ dragSource (removeConnection st s) = dragSource st.
Proof. repeat split. Qed.

(** ** The store: membership queries *)

(** C4.  After any sequence of [addConnection] and [removeConnection] calls
    on a mapping, [hasConnection(x, "source")] holds exactly when [x] is a
    key of the mapping as it is then, and [hasConnection(x, "target")]
    exactly when some key is mapped to [x].  In terms of the calls: a source
    is connected after it is added, not connected after it is removed, and
    a call about another source does not change the answer. *)
Theorem hasConnection_membership
    (mapping0 : Js.object) (cs : list Call) (x : string) :
  Js.well_formed mapping0 ->
  let st := calls (create mapping0) cs in
  (hasConnection st x (Some source_node) = true
     <-> exists t, Js.get (mapping st) x = Some t)
  /\ hasConnection st x None = hasConnection st x (Some source_node)
  /\ (hasConnection st x (Some target_node) = true
      <-> exists s, Js.get (mapping st) s = Some x)
  /\ (forall t,
        hasConnection (calls (create mapping0) (cs ++ [Add x t])) x
                      (Some source_node) = true)
  /\ hasConnection (calls (create mapping0) (cs ++ [Remove x])) x
                   (Some source_node) = false
  /\ (forall c, call_source c <> x ->
        hasConnection (calls (create mapping0) (cs ++ [c])) x
                      (Some source_node)
        = hasConnection st x (Some source_node)).
Proof.
  intros Hwf st.
  assert (Hst : Js.well_formed (mapping st)) by now apply calls_well_formed.
  split; [|split; [|split; [|split; [|split]]]].
  - apply key_iff_get.
  - reflexivity.
  - apply value_iff_get. apply Hst.
  - intros t. rewrite source_query_get, calls_snoc, get_after_call; simpl.
    now rewrite String.eqb_refl.
  - rewrite source_query_get, calls_snoc, get_after_call; simpl.
    now rewrite String.eqb_refl.
  - intros c Hc. rewrite !source_query_get, calls_snoc, get_after_call.
    apply not_eq_sym, String.eqb_neq in Hc. now rewrite Hc.
Qed.

Lemma hasConnection_membership_witness :
  Js.well_formed [("france", "paris")]
  /\ (hasConnection
        (calls (create [("france", "paris")])
               [Add "spain" "madrid"; Remove "france"]) "madrid"
        (Some target_node) = true
      <-> exists s,
            Js.get (mapping (calls (create [("france", "paris")])
                                   [Add "spain" "madrid"; Remove "france"])) s
            = Some "madrid").
Proof.
  assert (Hwf : Js.well_formed [("france", "paris")]).
  { split; simpl.
    - repeat constructor. intros [].
    - repeat constructor. }
  split; [exact Hwf|].
  exact (proj1 (proj2 (proj2
           (hasConnection_membership
              [("france", "paris")] [Add "spain" "madrid"; Remove "france"]
              "madrid" Hwf)))).
Defined.

(** ** The derived list of connections *)

Lemma connections_view (st : Store) :
  connections st = map view (Js.Object_entries (mapping st)).
Proof.
  unfold connections. apply map_ext. now intros [s t].
Qed.

Lemma define_put_last (o : Js.object) (k v : string) :
  Js.array_index k = None -> Js.define o k v = put_last o k v.
Proof.
  intros Hk. induction o as [|[k' v'] o' IH]; simpl; trivial.
  destruct (String.eqb k' k); trivial.
  unfold Js.precedes. rewrite Hk. now rewrite IH.
Qed.

Lemma plain_put_last (l : list (string * string)) (k v : string) :
  filter plain (put_last l k v)
  = if plain (k, v) then put_last (filter plain l) k v else filter plain l.
Proof.
  induction l as [|[k' v'] l' IH]; simpl.
  - now destruct (plain (k, v)).
  - destruct (String.eqb k' k) eqn:E.
    + apply String.eqb_eq in E; subst k'. simpl.
      change (plain (k, v')) with (plain (k, v)).
      destruct (plain (k, v)); simpl; trivial.
      now rewrite String.eqb_refl.
    + simpl. rewrite IH.
      destruct (plain (k', v')), (plain (k, v)); simpl; trivial.
      now rewrite E.
Qed.

Lemma plain_define (o : Js.object) (k v : string) :
  filter plain (Js.define o k v)
  = if plain (k, v) then put_last (filter plain o) k v else filter plain o.
Proof.
  destruct (plain (k, v)) eqn:P.
  - assert (Hk : Js.array_index k = None).
    { unfold plain in P; simpl in P. now destruct (Js.array_index k). }
    rewrite (define_put_last o k v Hk), plain_put_last. now rewrite P.
  - induction o as [|[k' v'] o' IH]; simpl.
    + now rewrite P.
    + destruct (String.eqb k' k) eqn:E.
      * apply String.eqb_eq in E; subst k'. simpl.
        change (plain (k, v')) with (plain (k, v)). now rewrite P.
      * destruct (Js.precedes k k'); simpl.
        -- now rewrite P.
        -- now rewrite IH.
Qed.

Lemma plain_delete (l : list (string * string)) (k : string) :
  filter plain (Js.delete l k) = Js.delete (filter plain l) k.
Proof.
  unfold Js.delete. induction l as [|e l' IH]; simpl; trivial.
  destruct (negb (String.eqb (fst e) k)) eqn:E, (plain e) eqn:P; simpl;
    rewrite ?E, ?P, IH; trivial.
Qed.

Lemma get_put_last (l : list (string * string)) (k v x : string) :
  Js.get (put_last l k v) x
  = if String.eqb x k then Some v else Js.get l x.
Proof.
  induction l as [|[k' v'] l' IH]; simpl.
  - now rewrite String.eqb_sym.
  - destruct (String.eqb k' k) eqn:E; simpl.
    + apply String.eqb_eq in E; subst k'. rewrite (String.eqb_sym x k).
      now destruct (String.eqb k x).
    + rewrite IH. destruct (String.eqb k' x) eqn:E'; trivial.
      apply String.eqb_eq in E'; subst k'. now rewrite E.
Qed.

Lemma get_after_inserted_step (l : list (string * string)) (c : Call)
    (x : string) :
  Js.get (inserted_step l c) x
  = if String.eqb x (call_source c)
    then match c with Add _ t => Some t | Remove _ => None end
    else Js.get l x.
Proof.
  destruct c as [s t|s]; simpl.
  - apply get_put_last.
  - destruct (String.eqb x s) eqn:E.
    + apply String.eqb_eq in E; subst. apply get_delete_same.
    + apply String.eqb_neq in E. now apply get_delete_other.
Qed.

(** The mapping a sequence of calls builds, next to the list in insertion
    order for the same calls: the same entries; the same order among the
    entries whose source is not an array index; the very same list when no
    added source is an array index. *)
Lemma calls_inserted (cs : list Call) (st : Store) (l : list (string * string)) :
  (forall x, Js.get (mapping st) x = Js.get l x) ->
  filter plain (mapping st) = filter plain l ->
  (forall x, Js.get (mapping (calls st cs)) x = Js.get (inserted l cs) x)
  /\ filter plain (mapping (calls st cs)) = filter plain (inserted l cs).
Proof.
  unfold calls, run, inserted. revert st l.
  induction cs as [|c cs IH]; intros st l Hget Hplain; simpl; auto.
  apply IH.
  - intros x. rewrite get_after_call, get_after_inserted_step.
    now rewrite Hget.
  - destruct c as [s t|s]; simpl.
    + unfold Js.spread. rewrite plain_define, plain_put_last.
      now rewrite Hplain.
    + unfold omit, Js.spread; simpl. rewrite !plain_delete.
      now rewrite Hplain.
Qed.

Lemma calls_inserted_plain (cs : list Call) (st : Store) :
  (forall s t, In (Add s t) cs -> Js.array_index s = None) ->
  mapping (calls st cs) = inserted (mapping st) cs.
Proof.
  unfold calls, run, inserted. revert st.
  induction cs as [|c cs IH]; intros st Hcs; simpl; trivial.
  rewrite IH by (intros s t H; apply (Hcs s t); now right).
  f_equal. destruct c as [s t|s]; simpl; trivial.
  apply define_put_last. apply (Hcs s t). now left.
Qed.

(** C2, as the code has it.  Every read of [connections] maps the entries of
    the mapping, as [Object.entries] lists them, to one view each, with
    [id = source + "->" + target].  After any sequence of calls the mapping
    holds the entries that insertion in call order gives; it lists the
    sources that are array indices first, in ascending numeric order, and
    after them the other sources in insertion order.  So the connections are
    in insertion order whenever no added source is an array index. *)
Theorem connections_order (mapping0 : Js.object) (cs : list Call) :
  Js.well_formed mapping0 ->
  let st := calls (create mapping0) cs in
  (forall st', connections st' = map view (Js.Object_entries (mapping st')))
  /\ (forall x, Js.get (mapping st) x = Js.get (inserted mapping0 cs) x)
  /\ StronglySorted Js.enumerated_before (Js.Object_entries (mapping st))
  /\ filter plain (Js.Object_entries (mapping st))
     = filter plain (inserted mapping0 cs)
  /\ ((forall s t, In (Add s t) cs -> Js.array_index s = None) ->
      connections st = map view (inserted mapping0 cs)).
Proof.
  intros Hwf st.
  destruct (calls_inserted cs (create mapping0) mapping0) as [Hget Hplain];
    trivial.
  split; [|split; [|split; [|split]]].
  - apply connections_view.
  - exact Hget.
  - apply (calls_well_formed cs (create mapping0) Hwf).
  - exact Hplain.
  - intros Hcs. rewrite connections_view. unfold Js.Object_entries, st.
    now rewrite (calls_inserted_plain cs (create mapping0) Hcs).
Qed.

Lemma connections_order_witness :
  Js.well_formed []
  /\ connections (calls (create [])
                        [Add "france" "paris"; Add "10" "rome";
                         Add "spain" "madrid"; Add "9" "lisbon"])
     = map view [("9", "lisbon"); ("10", "rome");
                 ("france", "paris"); ("spain", "madrid")]
  /\ connections (calls (create [])
                        [Add "spain" "madrid"; Add "france" "paris"])
     = map view (inserted [] [Add "spain" "madrid"; Add "france" "paris"]).
Proof.
  assert (Hwf : Js.well_formed []) by (split; constructor).
  split; [exact Hwf|]. split.
  - exact (proj1 (connections_order
                    [] [Add "france" "paris"; Add "10" "rome";
                        Add "spain" "madrid"; Add "9" "lisbon"] Hwf) _).
  - apply (proj2 (proj2 (proj2 (proj2
             (connections_order
                [] [Add "spain" "madrid"; Add "france" "paris"] Hwf))))).
    intros s t [H|[H|[]]]; inversion H; reflexivity.
Defined.

(** C2 as stated fails when a source is an array index: [Object.entries]
    lists such keys first and in numeric order, whenever they were added. *)
Lemma connections_not_in_insertion_order :
  map source (connections (calls (create []) [Add "2" "a"; Add "1" "b"]))
  = ["1"; "2"]
  /\ map fst (inserted [] [Add "2" "a"; Add "1" "b"]) = ["2"; "1"]
  /\ connections (calls (create []) [Add "2" "a"; Add "1" "b"])
     <> map view (inserted [] [Add "2" "a"; Add "1" "b"]).
Proof.
  split; [reflexivity|]. split; [reflexivity|]. discriminate.
Qed.


(** ** Numbers in template literals *)

Local Open Scope float_scope.
Local Set Warnings "-inexact-float".

(** [Number::toString] on a few doubles of each layout. *)
Example toString_layouts :
  map str [0; -0; 100; -2.5; 0.5; 0.1 + 0.2; 1 / 3; 1e21; 123456789012345680000;
           0.000001; 1e-7; 5e-324; 1.7976931348623157e308; 0 / 0; -1 / 0]
  = ["0"; "0"; "100"; "-2.5"; "0.5"; "0.30000000000000004";
     "0.3333333333333333"; "1e+21"; "123456789012345680000"; "0.000001";
     "1e-7"; "5e-324"; "1.7976931348623157e+308"; "NaN"; "-Infinity"]%string.
Proof. vm_compute. reflexivity. Qed.

(** ** The path generators *)

Lemma append_assoc (a b c : string) : ((a ++ b) ++ c = a ++ (b ++ c))%string.
Proof. induction a as [|ch a IH]; simpl; [reflexivity | now rewrite IH]. Qed.

Lemma append_empty (a : string) : (a ++ "" = a)%string.
Proof. induction a as [|ch a IH]; simpl; [reflexivity | now rewrite IH]. Qed.

Ltac path_text_eq :=
  unfold path_text, command_text; simpl;
  rewrite ?append_assoc; simpl; rewrite ?append_empty; reflexivity.

(** C5.  The bezier path moves to the source and draws one cubic curve to the
    target; its first control point is the source moved right by half the
    horizontal span, its second the target moved left by as much, each at
    the height of its own end point.  [generateBezierPath(0, 0, 100, 50)] is
    ["M 0 0 C 50 0, 50 50, 100 50"], and with source and target at one height
    every point of the path is at that height. *)
Theorem generateBezierPath_control_points (sx sy tx ty : float) :
  let half_span := abs (tx - sx) * 0.5 in
  generateBezierPath sx sy tx ty
  = path_text [ MoveTo {| x := sx; y := sy |};
                CurveTo {| x := sx + half_span; y := sy |}
                        {| x := tx - half_span; y := ty |}
                        {| x := tx; y := ty |} ]
  /\ generateBezierPath sx sy tx sy
     = path_text [ MoveTo {| x := sx; y := sy |};
                   CurveTo {| x := sx + half_span; y := sy |}
                           {| x := tx - half_span; y := sy |}
                           {| x := tx; y := sy |} ]
  /\ generateBezierPath 0 0 100 50 = "M 0 0 C 50 0, 50 50, 100 50"%string.
Proof.
  intros half_span. split; [|split].
  - unfold generateBezierPath. path_text_eq.
  - unfold generateBezierPath. path_text_eq.
  - vm_compute. reflexivity.
Qed.

(** C6.  The smooth step path runs horizontally from the source to [radius]
    short of the horizontal midpoint, turns through a quadratic corner of
    that radius into the vertical through the midpoint, runs vertically to
    [radius] short of the target's height, turns through the mirrored corner
    and runs horizontally to the target.  The vertical part is entered
    downwards ([direction = 1], ordinates grow) when [sy < ty] and upwards
    ([direction = -1]) otherwise.  [generateSmoothStepPath(10, 20, 100, 80, 5)]
    starts with ["M 10 20"], has corners of radius 5 and ends with ["H 100"]. *)
Theorem generateSmoothStepPath_segments (sx sy tx ty radius : float) :
  let midX := (sx + tx) / 2 in
  let direction := if sy <? ty then 1 else -1 in
  generateSmoothStepPath sx sy tx ty (Some radius)
  = path_text [ MoveTo {| x := sx; y := sy |};
                HorizontalTo (midX - radius);
                QuadraticTo {| x := midX; y := sy |}
                            {| x := midX; y := sy + direction * radius |};
                VerticalTo (ty - direction * radius);
                QuadraticTo {| x := midX; y := ty |}
                            {| x := midX + radius; y := ty |};
                HorizontalTo tx ]
  /\ generateSmoothStepPath sx sy tx ty None
     = generateSmoothStepPath sx sy tx ty (Some 2)
  /\ generateSmoothStepPath 10 20 100 80 (Some 5)
     = "M 10 20 H 50 Q 55,20 55,25 V 75 Q 55,80 60,80 H 100"%string.
Proof.
  intros midX direction. split; [|split].
  - unfold generateSmoothStepPath. fold midX direction. path_text_eq.
  - reflexivity.
  - vm_compute. reflexivity.
Qed.

(** The arrow head of a mounted connection points at the left centre of the
    target node's rectangle. *)
Lemma getArrowPath_of_rects (sourceRect targetRect : Rect) (size offset : float) :
  getArrowPath (coords (Some sourceRect) (Some targetRect))
               (Some size) (Some offset)
  = path_text
      (let tip := {| x := left targetRect - offset;
                     y := top targetRect + height targetRect / 2 |} in
       [ MoveTo tip;
         LineTo {| x := x tip - size; y := y tip - size / 2 |};
         LineTo {| x := x tip - size; y := y tip + size / 2 |};
         ClosePath ])
  /\ getArrowPath (coords None (Some targetRect)) (Some size) (Some offset)
     = ""%string
  /\ getArrowPath (coords (Some sourceRect) None) (Some size) (Some offset)
     = ""%string.
Proof.
  split; [|split]; try reflexivity.
  unfold getArrowPath, coords. path_text_eq.
Qed.

(** C7.  Whenever the anchors of a connection are known, the arrow path is a
    closed triangle: it moves to the tip [(targetX - offset, targetY)], draws
    a line to the corner [(tip.x - size, targetY - size / 2)], a line to the
    corner [(tip.x - size, targetY + size / 2)], and closes.  With size 4 and
    offset 0, which are also the defaults, and the target anchor at
    [(20, 20)] the tip is [(20, 20)] and the corners are [(16, 18)] and
    [(16, 22)]. *)
Theorem getArrowPath_triangle (c : Coords.t) (size offset : float) :
  let tip :=
    {| x := x (Coords.target c) - offset; y := y (Coords.target c) |} in
  getArrowPath (Some c) (Some size) (Some offset)
  = path_text [ MoveTo tip;
                LineTo {| x := x tip - size; y := y tip - size / 2 |};
                LineTo {| x := x tip - size; y := y tip + size / 2 |};
                ClosePath ]
  /\ getArrowPath (Some c) None None = getArrowPath (Some c) (Some 4) (Some 0)
  /\ getArrowPath
       (Some {| Coords.source := Coords.source c;
                Coords.target := {| x := 20; y := 20 |} |})
       (Some 4) (Some 0)
     = path_text [ MoveTo {| x := 20; y := 20 |};
                   LineTo {| x := 16; y := 18 |};
                   LineTo {| x := 16; y := 22 |};
                   ClosePath ]
  /\ path_text [ MoveTo {| x := 20; y := 20 |};
                 LineTo {| x := 16; y := 18 |};
                 LineTo {| x := 16; y := 22 |};
                 ClosePath ]
     = "M 20 20 L 16 18 L 16 22 Z"%string.
Proof.
  intros tip. split; [|split; [|split]].
  - unfold getArrowPath. subst tip. path_text_eq.
  - reflexivity.
  - vm_compute. reflexivity.
  - vm_compute. reflexivity.
Qed.

(** * Further properties of the code *)

Local Close Scope float_scope.

(** ** omit and the mapping commands *)

Lemma delete_delete_filter (o : Js.object) (k : string) (f : string * string -> bool) :
  Js.delete (filter f o) k
  = filter (fun e => f e && negb (String.eqb (fst e) k)) o.
Proof.
  unfold Js.delete. induction o as [|e o' IH]; simpl; trivial.
  destruct (f e); simpl; rewrite IH; trivial.
Qed.

Lemma omit_filter_from (keys : list string) (o : Js.object)
    (f : string * string -> bool) :
  fold_left Js.delete keys (filter f o)
  = filter (fun e => f e && negb (Js.includes keys (fst e))) o.
Proof.
  revert f. induction keys as [|k keys IH]; intros f; simpl.
  - apply filter_ext. intros e. now rewrite andb_true_r.
  - rewrite delete_delete_filter, IH. apply filter_ext. intros e.
    rewrite (String.eqb_sym (fst e) k).
    destruct (f e), (String.eqb k (fst e)), (Js.includes keys (fst e));
      reflexivity.
Qed.

(** X1.  [omit] keeps, in their order, exactly the entries whose key is not among
    [keys], whatever the number of keys, repeated or absent ones included;
    so a read of an omitted key finds nothing and every other read is as
    before. *)
Theorem omit_keeps_the_other_entries (obj : Js.object) (keys : list string) :
  Js.Object_entries (omit obj keys)
  = filter (fun e => negb (Js.includes keys (fst e))) (Js.Object_entries obj)
  /\ forall x, Js.get (omit obj keys) x
              = if Js.includes keys x then None else Js.get obj x.
Proof.
  assert (H : omit obj keys
              = filter (fun e => negb (Js.includes keys (fst e))) obj).
  { assert (Hid : filter (fun _ : string * string => true) obj = obj)
      by (apply forallb_filter_id; now apply forallb_forall).
    unfold omit, Js.spread. rewrite <- Hid at 1.
    rewrite omit_filter_from. now apply filter_ext. }
  split; [exact H|].
  intros x. rewrite H. clear H.
  induction obj as [|[k v] o' IH]; simpl.
  - now destruct (Js.includes keys x).
  - destruct (Js.includes keys k) eqn:Ek; simpl.
    + rewrite IH. destruct (String.eqb k x) eqn:E; trivial.
      apply String.eqb_eq in E; subst. now rewrite Ek.
    + destruct (String.eqb k x) eqn:E; trivial.
      apply String.eqb_eq in E; subst. now rewrite Ek.
Qed.

Lemma delete_define_absent (o : Js.object) (k v : string) :
  Js.get o k = None -> Js.delete (Js.define o k v) k = o.
Proof.
  unfold Js.delete.
  induction o as [|[k' v'] o' IH]; simpl.
  - now rewrite String.eqb_refl.
  - destruct (String.eqb k' k) eqn:E; [discriminate|]. intros Hget.
    destruct (Js.precedes k k'); simpl.
    + rewrite String.eqb_refl, E; simpl. f_equal.
      now apply (delete_absent o' k).
    + rewrite E; simpl. f_equal. now apply IH.
Qed.

(** X2.  Adding a connection for a source that has none and removing it again
    gives the mapping back, entry for entry and in the same order. *)
Theorem add_then_remove_restores (st : Store) (s t : string) :
  Js.get (mapping st) s = None ->
  mapping (removeConnection (addConnection st s t) s) = mapping st.
Proof.
  intros H. unfold removeConnection, addConnection, omit, Js.spread; simpl.
  now apply delete_define_absent.
Qed.

Lemma add_then_remove_restores_witness :
  Js.get (mapping (create [("7", "rome"); ("france", "paris")])) "10" = None
  /\ mapping (removeConnection
                (addConnection (create [("7", "rome"); ("france", "paris")])
                               "10" "lisbon") "10")
     = [("7", "rome"); ("france", "paris")].
Proof.
  split; [reflexivity|].
  apply (add_then_remove_restores
           (create [("7", "rome"); ("france", "paris")]) "10" "lisbon").
  reflexivity.
Defined.

Lemma define_define (o : Js.object) (k v1 v2 : string) :
  Js.define (Js.define o k v1) k v2 = Js.define o k v2.
Proof.
  induction o as [|[k' v'] o' IH]; simpl.
  - now rewrite String.eqb_refl.
  - destruct (String.eqb k' k) eqn:E; simpl.
    + now rewrite String.eqb_refl.
    + destruct (Js.precedes k k') eqn:P; simpl.
      * now rewrite String.eqb_refl.
      * now rewrite E, P, IH.
Qed.

(** X3.  The last write wins, in the whole mapping: two [addConnection] calls for
    one source leave the mapping that the second call alone would leave. *)
Theorem add_twice_is_last_add (st : Store) (s t1 t2 : string) :
  mapping (addConnection (addConnection st s t1) s t2)
  = mapping (addConnection st s t2).
Proof. unfold addConnection, Js.spread; simpl. apply define_define. Qed.

Lemma define_present (o : Js.object) (k v : string) :
  Js.well_formed o -> In k (Js.Object_keys o) ->
  Js.define o k v
  = map (fun e => if String.eqb (fst e) k then (k, v) else e) o.
Proof.
  unfold Js.well_formed, Js.Object_keys.
  induction o as [|[k' v'] o' IH]; simpl; intros [Hnd Hs] Hin; [contradiction|].
  inversion Hnd as [|? ? Hk' Hnd']; subst.
  inversion Hs as [|? ? Hs' Hall]; subst.
  destruct (String.eqb k' k) eqn:E.
  - apply String.eqb_eq in E; subst k'. f_equal.
    rewrite <- (map_id o') at 1. apply map_ext_in. intros [a b] Hab; simpl.
    destruct (String.eqb a k) eqn:E'; trivial.
    apply String.eqb_eq in E'; subst a.
    exfalso. apply Hk'. apply in_map_iff. now exists (k, b).
  - destruct Hin as [Hin|Hin]; [apply String.eqb_neq in E; congruence|].
    apply in_map_iff in Hin as [[a b] [Ha Hab]]; simpl in Ha; subst a.
    rewrite Forall_forall in Hall.
    assert (P : Js.precedes k k' = false).
    { apply (precedes_enumerated (k', v') (k, b)). now apply Hall. }
    rewrite P. f_equal. apply IH; [now split|].
    apply in_map_iff. now exists (k, b).
Qed.

(** X4.  [addConnection] for a source that is connected already replaces its
    target where the entry stands: the sources keep their order, and the
    list of connections its length. *)
Theorem add_connected_source_in_place (st : Store) (s t : string) :
  Js.well_formed (mapping st) ->
  hasConnection st s (Some source_node) = true ->
  connections (addConnection st s t)
  = map (fun c => if String.eqb (source c) s then view (s, t) else c)
        (connections st)
  /\ map source (connections (addConnection st s t))
     = map source (connections st).
Proof.
  intros Hwf Hs.
  assert (Hin : In s (Js.Object_keys (mapping st)))
    by now apply includes_In.
  assert (E : connections (addConnection st s t)
              = map (fun c => if String.eqb (source c) s then view (s, t) else c)
                    (connections st)).
  { rewrite !connections_view. unfold addConnection, Js.spread, Js.Object_entries;
      simpl.
    rewrite (define_present _ s t Hwf Hin), !map_map.
    apply map_ext. intros [a b]; simpl. now destruct (String.eqb a s). }
  split; [exact E|].
  rewrite E, map_map. apply map_ext. intros c.
  destruct (String.eqb (source c) s) eqn:Ec; trivial.
  apply String.eqb_eq in Ec. now rewrite Ec.
Qed.

Lemma add_connected_source_in_place_witness :
  Js.well_formed (mapping (create [("france", "paris"); ("spain", "rome")]))
  /\ map source
         (connections (addConnection
                         (create [("france", "paris"); ("spain", "rome")])
                         "france" "madrid"))
     = ["france"; "spain"].
Proof.
  assert (Hwf : Js.well_formed [("france", "paris"); ("spain", "rome")]).
  { split; simpl.
    - repeat constructor; simpl; intuition discriminate.
    - repeat constructor. }
  split; [exact Hwf|].
  exact (proj2 (add_connected_source_in_place
                  (create [("france", "paris"); ("spain", "rome")])
                  "france" "madrid" Hwf eq_refl)).
Defined.

Lemma put_last_absent (l : list (string * string)) (k v : string) :
  Js.get l k = None -> put_last l k v = (l ++ [(k, v)])%list.
Proof.
  induction l as [|[k' v'] l' IH]; simpl; trivial.
  destruct (String.eqb k' k); [discriminate|].
  intros H. now rewrite IH.
Qed.

(** X5.  A connection for a source that has none, and whose identifier is not an
    array index, is added at the end of the list of connections. *)
Theorem add_new_source_goes_last (st : Store) (s t : string) :
  Js.get (mapping st) s = None ->
  Js.array_index s = None ->
  connections (addConnection st s t)
  = (connections st ++ [view (s, t)])%list.
Proof.
  intros Hget Hidx. rewrite !connections_view.
  unfold addConnection, Js.spread, Js.Object_entries; simpl.
  rewrite (define_put_last _ s t Hidx), (put_last_absent _ s t Hget).
  now rewrite map_app.
Qed.

Lemma add_new_source_goes_last_witness :
  Js.get (mapping (create [("7", "rome"); ("spain", "madrid")])) "france" = None
  /\ Js.array_index "france" = None
  /\ connections (addConnection (create [("7", "rome"); ("spain", "madrid")])
                                "france" "paris")
     = (connections (create [("7", "rome"); ("spain", "madrid")])
        ++ [view ("france", "paris")])%list.
Proof.
  split; [reflexivity|]. split; [reflexivity|].
  apply (add_new_source_goes_last
           (create [("7", "rome"); ("spain", "madrid")]) "france" "paris");
    reflexivity.
Defined.

Lemma get_None_keys (o : Js.object) (k : string) :
  Js.get o k = None <-> ~ In k (Js.Object_keys o).
Proof.
  rewrite <- includes_In, key_iff_get. split.
  - intros H [t Ht]. congruence.
  - intros H. destruct (Js.get o k) as [t|]; trivial.
    elim H. now exists t.
Qed.

Lemma length_define_absent (o : Js.object) (k v : string) :
  Js.get o k = None -> List.length (Js.define o k v) = S (List.length o).
Proof.
  induction o as [|[k' v'] o' IH]; simpl; trivial.
  destruct (String.eqb k' k); [discriminate|].
  intros H. destruct (Js.precedes k k'); simpl; trivial.
  now rewrite IH.
Qed.

Lemma length_delete_present (o : Js.object) (k : string) :
  NoDup (map fst o) -> In k (map fst o) ->
  S (List.length (Js.delete o k)) = List.length o.
Proof.
  unfold Js.delete.
  induction o as [|[k' v'] o' IH]; simpl; intros Hnd Hin; [contradiction|].
  inversion Hnd as [|? ? Hk' Hnd']; subst.
  destruct (String.eqb k' k) eqn:E; simpl.
  - apply String.eqb_eq in E; subst k'. f_equal.
    change (List.length (Js.delete o' k) = List.length o'). f_equal.
    apply delete_absent. now apply get_None_keys.
  - f_equal. apply IH; trivial.
    destruct Hin as [Hin|Hin]; trivial.
    apply String.eqb_neq in E. congruence.
Qed.

(** X6.  The number of connections, counted with [hasConnection]: adding for a
    source gives one connection more unless the source was connected, and
    removing a source gives one less unless it was not. *)
Theorem connections_count (st : Store) (s t : string) :
  Js.well_formed (mapping st) ->
  List.length (connections (addConnection st s t))
  = (if hasConnection st s (Some source_node) then 0 else 1)
    + List.length (connections st)
  /\ (if hasConnection st s (Some source_node) then 1 else 0)
     + List.length (connections (removeConnection st s))
     = List.length (connections st).
Proof.
  intros Hwf. unfold connections. rewrite !List.length_map.
  unfold Js.Object_entries, addConnection, removeConnection, omit, Js.spread;
    simpl.
  destruct (Js.includes (Js.Object_keys (mapping st)) s) eqn:E.
  - assert (Hin : In s (Js.Object_keys (mapping st))) by now apply includes_In.
    split.
    + rewrite (define_present _ s t Hwf Hin). now rewrite List.length_map.
    + apply length_delete_present; [apply Hwf | exact Hin].
  - assert (Hget : Js.get (mapping st) s = None).
    { apply get_None_keys. intros H. apply includes_In in H. congruence. }
    split.
    + now apply length_define_absent.
    + now rewrite (delete_absent _ _ Hget).
Qed.

Lemma connections_count_witness :
  Js.well_formed (mapping (create [("france", "paris")]))
  /\ List.length (connections
               (addConnection (create [("france", "paris")]) "france" "rome"))
     = 1.
Proof.
  assert (Hwf : Js.well_formed [("france", "paris")]).
  { split; simpl.
    - repeat constructor. intros [].
    - repeat constructor. }
  split; [exact Hwf|].
  exact (proj1 (connections_count (create [("france", "paris")])
                                  "france" "rome" Hwf)).
Defined.

(** X7.  Which targets are connected after a command: after [addConnection s t]
    the target [t] and every target another source maps to; after
    [removeConnection s] exactly the targets another source maps to.  So a
    target stays connected when one of several sources mapped to it is
    removed. *)
Theorem connected_targets_after (st : Store) (s t x : string) :
  Js.well_formed (mapping st) ->
  (hasConnection (addConnection st s t) x (Some target_node) = true
     <-> x = t \/ exists s', s' <> s /\ Js.get (mapping st) s' = Some x)
  /\ (hasConnection (removeConnection st s) x (Some target_node) = true
     <-> exists s', s' <> s /\ Js.get (mapping st) s' = Some x).
Proof.
  intros Hwf.
  assert (Hadd : Js.well_formed (mapping (addConnection st s t)))
    by (apply define_well_formed, Hwf).
  assert (Hrem : Js.well_formed (mapping (removeConnection st s)))
    by (apply delete_well_formed, Hwf).
  split.
  - unfold hasConnection. rewrite (value_iff_get _ x (proj1 Hadd)).
    unfold addConnection, Js.spread; simpl. split.
    + intros [s' H]. destruct (String.eqb s' s) eqn:E.
      * apply String.eqb_eq in E; subst s'.
        rewrite get_define_same in H. left. congruence.
      * apply String.eqb_neq in E. rewrite get_define_other in H by trivial.
        right. now exists s'.
    + intros [->|[s' [Hne H]]].
      * exists s. apply get_define_same.
      * exists s'. now rewrite get_define_other.
  - unfold hasConnection. rewrite (value_iff_get _ x (proj1 Hrem)).
    unfold removeConnection, omit, Js.spread; simpl. split.
    + intros [s' H]. destruct (String.eqb s' s) eqn:E.
      * apply String.eqb_eq in E; subst s'.
        rewrite get_delete_same in H. discriminate.
      * apply String.eqb_neq in E. rewrite get_delete_other in H by trivial.
        now exists s'.
    + intros [s' [Hne H]]. exists s'. now rewrite get_delete_other.
Qed.

Lemma connected_targets_after_witness :
  Js.well_formed (mapping (create [("france", "paris"); ("spain", "paris")]))
  /\ hasConnection
       (removeConnection (create [("france", "paris"); ("spain", "paris")])
                         "france")
       "paris" (Some target_node) = true.
Proof.
  assert (Hwf : Js.well_formed [("france", "paris"); ("spain", "paris")]).
  { split; simpl.
    - repeat constructor; simpl; intuition discriminate.
    - repeat constructor. }
  split; [exact Hwf|].
  apply (proj2 (connected_targets_after
                  (create [("france", "paris"); ("spain", "paris")])
                  "france" "rome" "paris" Hwf)).
  exists "spain". split; [discriminate | reflexivity].
Defined.

(** ** The store over whole command sequences *)

Lemma run_snoc (st : Store) (cs : list Command) (c : Command) :
  run st (cs ++ [c]) = step (run st cs) c.
Proof. unfold run. now rewrite fold_left_app. Qed.

Lemma step_well_formed (st : Store) (c : Command) :
  Js.well_formed (mapping st) -> Js.well_formed (mapping (step st c)).
Proof.
  intros Hwf. destruct c; simpl; trivial.
  - now apply define_well_formed.
  - now apply delete_well_formed.
  - destruct (dragSource st) as [[|ch s]|]; simpl; trivial.
    now apply define_well_formed.
Qed.

Lemma run_well_formed (cs : list Command) (st : Store) :
  Js.well_formed (mapping st) -> Js.well_formed (mapping (run st cs)).
Proof.
  unfold run. revert st.
  induction cs as [|c cs IH]; intros st Hwf; simpl; trivial.
  now apply IH, step_well_formed.
Qed.

(** X8.  Whatever the store is told to do, drags included, no source ever has two
    connections: the sources of the derived list are pairwise distinct in
    every state reached from a mapping that is an object. *)
Theorem sources_distinct_reachable (mapping0 : Js.object) (cs : list Command) :
  Js.well_formed mapping0 ->
  NoDup (map source (connections (run (create mapping0) cs))).
Proof.
  intros Hwf.
  destruct (run_well_formed cs (create mapping0) Hwf) as [Hnd _].
  rewrite connections_view, map_map. unfold Js.Object_entries.
  rewrite (map_ext (fun e => source (view e)) fst) by reflexivity.
  exact Hnd.
Qed.

Lemma sources_distinct_reachable_witness :
  Js.well_formed []
  /\ NoDup (map source
              (connections
                 (run (create [])
                      [StartConnection "france"; EndConnection "paris";
                       AddConnection "france" "rome";
                       StartConnection "france"; EndConnection "lisbon"]))).
Proof.
  assert (Hwf : Js.well_formed []) by (split; constructor).
  split; [exact Hwf|].
  apply (sources_distinct_reachable
           [] [StartConnection "france"; EndConnection "paris";
               AddConnection "france" "rome";
               StartConnection "france"; EndConnection "lisbon"] Hwf).
Defined.

(** Where an entry of the mapping can come from. *)
Lemma entry_origin (mapping0 : Js.object) (cs : list Command) :
  let st := run (create mapping0) cs in
  (forall s t, In (s, t) (Js.Object_entries (mapping st)) ->
     In (s, t) mapping0
     \/ In (AddConnection s t) cs
     \/ (In (StartConnection s) cs /\ In (EndConnection t) cs))
  /\ (forall s, dragSource st = Some s -> In (StartConnection s) cs).
Proof.
  induction cs as [|c cs IH] using rev_ind; simpl.
  - split; [auto | discriminate].
  - rewrite run_snoc. destruct IH as [IHm IHd].
    set (st := run (create mapping0) cs) in *.
    assert (Hold : forall s t, In (s, t) (mapping st) ->
              In (s, t) mapping0
              \/ In (AddConnection s t) (cs ++ [c])
              \/ (In (StartConnection s) (cs ++ [c])
                  /\ In (EndConnection t) (cs ++ [c]))).
    { intros s t H. destruct (IHm s t H) as [H1|[H1|[H1 H2]]]; auto.
      - right; left. apply in_or_app; auto.
      - right; right. split; apply in_or_app; auto. }
    assert (Hlast : In c (cs ++ [c])) by (apply in_or_app; right; now left).
    destruct c as [a b|a|a|b|]; simpl.
    + split.
      * intros s t H. unfold Js.Object_entries, Js.spread in H.
        destruct (in_define _ _ _ _ H) as [E|H']; auto.
        inversion E; subst. auto.
      * intros s H. apply in_or_app. left. now apply IHd.
    + split.
      * intros s t H. unfold Js.Object_entries, omit, Js.spread in H.
        simpl in H. apply filter_In in H as [H _]. auto.
      * intros s H. apply in_or_app. left. now apply IHd.
    + split; auto.
      intros s [= <-]. exact Hlast.
    + split; [|discriminate].
      intros s t H. unfold Js.Object_entries in H.
      destruct (dragSource st) as [[|ch d]|] eqn:D; simpl in H; auto.
      unfold Js.spread in H.
      destruct (in_define _ _ _ _ H) as [E|H']; auto.
      inversion E; subst. right; right. split; trivial.
      apply in_or_app. left. now apply IHd.
    + split; [auto | discriminate].
Qed.

(** X9.  The store never makes up a connection: every connection of a reachable
    state was in the host's mapping, or was passed to [addConnection], or
    joins a source passed to [startConnection] with a target passed to
    [endConnection]. *)
Theorem connections_have_an_origin
    (mapping0 : Js.object) (cs : list Command) (c : Connection) :
  In c (connections (run (create mapping0) cs)) ->
  id c = (source c ++ "->" ++ target c)%string
  /\ (In (source c, target c) mapping0
      \/ In (AddConnection (source c) (target c)) cs
      \/ (In (StartConnection (source c)) cs
          /\ In (EndConnection (target c)) cs)).
Proof.
  rewrite connections_view. intros H.
  apply in_map_iff in H as [[s t] [<- H]]. simpl.
  split; trivial. now apply (entry_origin mapping0 cs).
Qed.

Lemma connections_have_an_origin_witness :
  In (view ("france", "paris"))
     (connections (run (create [("spain", "madrid")])
                       [StartConnection "france"; EndConnection "paris"]))
  /\ (In ("france", "paris") [("spain", "madrid")]
      \/ In (AddConnection "france" "paris")
            [StartConnection "france"; EndConnection "paris"]
      \/ (In (StartConnection "france")
             [StartConnection "france"; EndConnection "paris"]
          /\ In (EndConnection "paris")
                [StartConnection "france"; EndConnection "paris"])).
Proof.
  assert (H : In (view ("france", "paris"))
                 (connections
                    (run (create [("spain", "madrid")])
                         [StartConnection "france"; EndConnection "paris"])))
    by (simpl; auto).
  split; [exact H|].
  exact (proj2 (connections_have_an_origin
                  [("spain", "madrid")]
                  [StartConnection "france"; EndConnection "paris"]
                  (view ("france", "paris")) H)).
Defined.

Lemma idle_has_no_source (cs : list Command) (st : Store) :
  (isDragging st = false -> dragSource st = None) ->
  isDragging (run st cs) = false -> dragSource (run st cs) = None.
Proof.
  unfold run. revert st.
  induction cs as [|c cs IH]; intros st Hst; simpl; trivial.
  apply IH. destruct c; simpl; trivial. discriminate.
Qed.

(** X10.  While no drag is in progress, a pointer release and a cancel leave the
    whole store as it is, in every state the commands can reach. *)
Theorem idle_release_changes_nothing
    (mapping0 : Js.object) (cs : list Command) (t : string) :
  let st := run (create mapping0) cs in
  isDragging st = false ->
  endConnection st t = st /\ cancelConnection st = st.
Proof.
  intros st Hidle.
  assert (Hsrc : dragSource st = None)
    by (apply idle_has_no_source; trivial).
  unfold endConnection, cancelConnection. rewrite Hsrc; simpl.
  destruct st as [m d s]; simpl in *; subst. auto.
Qed.

Lemma idle_release_changes_nothing_witness :
  isDragging (run (create [("france", "paris")])
                  [StartConnection "spain"; CancelConnection]) = false
  /\ endConnection (run (create [("france", "paris")])
                        [StartConnection "spain"; CancelConnection]) "madrid"
     = run (create [("france", "paris")])
           [StartConnection "spain"; CancelConnection].
Proof.
  split; [reflexivity|].
  apply (idle_release_changes_nothing
           [("france", "paris")] [StartConnection "spain"; CancelConnection]
           "madrid").
  reflexivity.
Defined.

(** X11.  A second [startConnection] before the drag ends replaces the pending
    source: the drag state is that of the second call alone, and the
    release commits the second source and leaves the first as it was. *)
Theorem second_start_replaces_first (st : Store) (s1 s2 t : string) :
  s2 <> "" -> s1 <> s2 ->
  startConnection (startConnection st s1) s2 = startConnection st s2
  /\ Js.get (mapping (endConnection
                        (startConnection (startConnection st s1) s2) t)) s2
     = Some t
  /\ Js.get (mapping (endConnection
                        (startConnection (startConnection st s1) s2) t)) s1
     = Js.get (mapping st) s1.
Proof.
  intros Hne Hd.
  assert (Hend : mapping (endConnection
                            (startConnection (startConnection st s1) s2) t)
                 = Js.define (mapping st) s2 t)
    by exact (endConnection_commit
                (startConnection (startConnection st s1) s2) s2 t eq_refl Hne).
  split; [reflexivity|]. rewrite Hend. split.
  - apply get_define_same.
  - now apply get_define_other.
Qed.

Lemma second_start_replaces_first_witness :
  "spain" <> "" /\ "france" <> "spain"
  /\ Js.get (mapping (endConnection
                        (startConnection (startConnection (create []) "france")
                                         "spain") "madrid")) "france"
     = None.
Proof.
  assert (H1 : "spain" <> "") by discriminate.
  assert (H2 : "france" <> "spain") by discriminate.
  split; [exact H1|]. split; [exact H2|].
  exact (proj2 (proj2 (second_start_replaces_first
                         (create []) "france" "spain" "madrid" H1 H2))).
Defined.

Lemma step_keeps_source (st : Store) (c : Command) (s : string) :
  c <> RemoveConnection s ->
  hasConnection st s (Some source_node) = true ->
  hasConnection (step st c) s (Some source_node) = true.
Proof.
  intros Hc H. apply key_iff_get in H as [v Hv]. apply key_iff_get.
  assert (Hdef : forall k w, exists v', Js.get (Js.define (mapping st) k w) s = Some v').
  { intros k w. destruct (String.eqb s k) eqn:E.
    - apply String.eqb_eq in E; subst k. exists w. apply get_define_same.
    - apply String.eqb_neq in E. exists v. now rewrite get_define_other. }
  destruct c as [a b|a|a|b|]; simpl.
  - apply Hdef.
  - exists v. unfold omit, Js.spread; simpl.
    rewrite get_delete_other; trivial. congruence.
  - now exists v.
  - destruct (dragSource st) as [[|ch d]|]; simpl;
      try (now exists v). apply Hdef.
  - now exists v.
Qed.

(** X12.  Only [removeConnection] disconnects a source: a source that is
    connected stays connected through every sequence of commands that does
    not remove it, drags and overwrites included. *)
Theorem source_stays_connected (st : Store) (cs : list Command) (s : string) :
  hasConnection st s (Some source_node) = true ->
  ~ In (RemoveConnection s) cs ->
  hasConnection (run st cs) s (Some source_node) = true.
Proof.
  unfold run. revert st.
  induction cs as [|c cs IH]; intros st H Hcs; simpl; trivial.
  apply IH.
  - apply step_keeps_source; trivial.
    intros ->. apply Hcs. now left.
  - intros Hin. apply Hcs. now right.
Qed.

Lemma source_stays_connected_witness :
  hasConnection (create [("france", "paris")]) "france" (Some source_node)
  = true
  /\ ~ In (RemoveConnection "france")
          [StartConnection "france"; EndConnection "rome";
           RemoveConnection "spain"]
  /\ hasConnection
       (run (create [("france", "paris")])
            [StartConnection "france"; EndConnection "rome";
             RemoveConnection "spain"])
       "france" (Some source_node) = true.
Proof.
  assert (H : ~ In (RemoveConnection "france")
                   [StartConnection "france"; EndConnection "rome";
                    RemoveConnection "spain"])
    by (simpl; intuition discriminate).
  split; [reflexivity|]. split; [exact H|].
  exact (source_stays_connected
           (create [("france", "paris")])
           [StartConnection "france"; EndConnection "rome";
            RemoveConnection "spain"] "france" eq_refl H).
Defined.

(** ** useNode: gestures on the nodes *)

(** X13.  Pressing the mouse on a source that has no connection and releasing it
    on a target connects the two, as [addConnection] would, and ends the
    drag. *)
Theorem mouse_drag_connects (st : Store) (s t : string) :
  s <> "" ->
  isConnected st s source_node = false ->
  let st' := onMouseUp (onMouseDown st s source_node) t target_node in
  mapping st' = mapping (addConnection st s t)
  /\ Js.get (mapping st') s = Some t
  /\ isConnected st' s source_node = true
  /\ isConnected st' t target_node = true
  /\ isDragging st' = false
  /\ dragSource st' = None.
Proof.
  intros Hne Hfree st'. unfold isConnected in *.
  assert (E : mapping st' = mapping (addConnection st s t)).
  { unfold st', onMouseUp, onMouseDown. rewrite Hfree; simpl.
    exact (endConnection_commit (startConnection st s) s t eq_refl Hne). }
  assert (G : Js.get (mapping st') s = Some t)
    by (rewrite E; apply get_define_same).
  split; [exact E|]. split; [exact G|]. split; [|split; [|split]].
  - apply key_iff_get. now exists t.
  - unfold hasConnection. apply includes_In. unfold Js.Object_values.
    apply in_map_iff. exists (s, t). split; trivial. now apply get_Some_In.
  - reflexivity.
  - reflexivity.
Qed.

Lemma mouse_drag_connects_witness :
  "france" <> ""
  /\ isConnected (create [("spain", "madrid")]) "france" source_node = false
  /\ mapping (onMouseUp (onMouseDown (create [("spain", "madrid")])
                                     "france" source_node)
                        "paris" target_node)
     = [("spain", "madrid"); ("france", "paris")].
Proof.
  assert (H1 : "france" <> "") by discriminate.
  split; [exact H1|]. split; [reflexivity|].
  exact (proj1 (mouse_drag_connects (create [("spain", "madrid")])
                                    "france" "paris" H1 eq_refl)).
Defined.







(** X17.  In every reachable state a node reports [isDragSource] exactly when it
    is the recorded drag source; so at most one node does, and none while
    the store is idle. *)
Theorem isDragSource_reachable
    (mapping0 : Js.object) (cs : list Command) (a b : string) :
  let st := run (create mapping0) cs in
  (isDragSource st a = true <-> dragSource st = Some a)
  /\ (isDragSource st a = true -> isDragSource st b = true -> a = b)
  /\ (isDragging st = false -> isDragSource st a = false).
Proof.
  intros st.
  assert (Hinv : isDragging st = false -> dragSource st = None)
    by (apply idle_has_no_source; trivial).
  assert (Hiff : forall z, isDragSource st z = true <-> dragSource st = Some z).
  { intros z. unfold isDragSource. split.
    - intros H. apply andb_prop in H as [_ H].
      destruct (dragSource st) as [d|]; [|discriminate].
      apply String.eqb_eq in H. now subst.
    - intros H. rewrite H, String.eqb_refl.
      destruct (isDragging st); trivial.
      rewrite Hinv in H; [discriminate | reflexivity]. }
  split; [apply Hiff|]. split.
  - intros Ha Hb. apply Hiff in Ha, Hb. congruence.
  - intros Hidle. unfold isDragSource. now rewrite Hidle.
Qed.

Lemma isDragSource_reachable_witness :
  isDragSource (run (create []) [StartConnection "france"]) "france" = true
  /\ isDragSource (run (create []) [StartConnection "france"]) "spain" = false.
Proof.
  split; [|reflexivity].
  apply (proj1 (isDragSource_reachable [] [StartConnection "france"]
                                       "france" "spain")).
  reflexivity.
Defined.

(** ** The derived list and the queries agree *)

(** X18.  [hasConnection] and the list of connections tell the same story: a node
    is connected as a source exactly when some connection starts at it, and
    as a target exactly when some connection ends at it. *)
Theorem hasConnection_iff_connection (st : Store) (x : string) :
  (hasConnection st x (Some source_node) = true
     <-> exists c, In c (connections st) /\ source c = x)
  /\ (hasConnection st x (Some target_node) = true
     <-> exists c, In c (connections st) /\ target c = x).
Proof.
  unfold hasConnection. rewrite !includes_In, connections_view.
  unfold Js.Object_keys, Js.Object_values, Js.Object_entries.
  split; split.
  - intros H. apply in_map_iff in H as [e [<- He]].
    exists (view e). split; trivial. now apply in_map.
  - intros [c [Hc <-]]. apply in_map_iff in Hc as [e [<- He]].
    simpl. now apply in_map.
  - intros H. apply in_map_iff in H as [e [<- He]].
    exists (view e). split; trivial. now apply in_map.
  - intros [c [Hc <-]]. apply in_map_iff in Hc as [e [<- He]].
    simpl. now apply in_map.
Qed.

Lemma id_determines_entry (s1 t1 s2 t2 : string) :
  has_dash s1 = false -> has_dash s2 = false ->
  (s1 ++ "->" ++ t1 = s2 ++ "->" ++ t2)%string -> s1 = s2 /\ t1 = t2.
Proof.
  unfold has_dash. revert s2.
  induction s1 as [|c1 s1 IH]; intros [|c2 s2]; simpl; intros H1 H2 E.
  - inversion E. auto.
  - inversion E; subst. simpl in H2. discriminate.
  - inversion E; subst. simpl in H1. discriminate.
  - inversion E; subst.
    apply orb_false_elim in H1 as [_ H1]. apply orb_false_elim in H2 as [_ H2].
    destruct (IH s2 H1 H2 H3) as [-> ->]. auto.
Qed.

(** X19.  The [id] of a connection identifies it among the connections, as a key
    of a rendered list must, provided no source contains the character
    [-]: then the [id]s of the list are pairwise distinct. *)
Theorem connection_ids_distinct (st : Store) :
  Js.well_formed (mapping st) ->
  Forall (fun c => has_dash (source c) = false) (connections st) ->
  NoDup (map id (connections st)).
Proof.
  intros [Hnd _]. rewrite connections_view. unfold Js.Object_entries.
  induction (mapping st) as [|[s t] m IH]; simpl; intros Hdash.
  - constructor.
  - inversion Hnd as [|? ? Hs Hnd']; subst.
    inversion Hdash as [|? ? Hd Hdash']; subst. simpl in Hd.
    constructor; [|now apply IH].
    intros Hin. apply in_map_iff in Hin as [c [Hc Hin]].
    apply in_map_iff in Hin as [[s' t'] [<- He]]. simpl in Hc.
    rewrite Forall_forall in Hdash'.
    assert (Hd' : has_dash s' = false)
      by (apply (Hdash' (view (s', t'))); now apply in_map).
    destruct (id_determines_entry s' t' s t Hd' Hd Hc) as [-> _].
    apply Hs. apply in_map_iff. now exists (s, t').
Qed.

Lemma connection_ids_distinct_witness :
  Js.well_formed (mapping (create [("france", "paris"); ("spain", "paris")]))
  /\ NoDup (map id (connections
                      (create [("france", "paris"); ("spain", "paris")]))).
Proof.
  assert (Hwf : Js.well_formed [("france", "paris"); ("spain", "paris")]).
  { split; simpl.
    - repeat constructor; simpl; intuition discriminate.
    - repeat constructor. }
  split; [exact Hwf|].
  apply (connection_ids_distinct
           (create [("france", "paris"); ("spain", "paris")]) Hwf).
  repeat constructor.
Defined.

(** ** The paths of a connection and of the preview *)

Local Open Scope float_scope.

Lemma generateBezierPath_not_empty (sx sy tx ty : float) :
  generateBezierPath sx sy tx ty <> ""%string.
Proof. unfold generateBezierPath; simpl. discriminate. Qed.

Lemma generateSmoothStepPath_not_empty (sx sy tx ty : float)
    (radius : option float) :
  generateSmoothStepPath sx sy tx ty radius <> ""%string.
Proof. unfold generateSmoothStepPath; simpl. discriminate. Qed.

(** X20.  Each of the three path functions returns the empty string exactly when
    there are no coordinates, that is while a rectangle is missing; with
    coordinates it returns path data that starts with a move to a point. *)
Theorem paths_empty_iff_no_coords (c : option Coords.t)
    (radius size offset : option float) :
  (getBezierPath c = ""%string <-> c = None)
  /\ (getSmoothStepPath c radius = ""%string <-> c = None)
  /\ (getArrowPath c size offset = ""%string <-> c = None)
  /\ (forall sourceRect targetRect,
        coords sourceRect targetRect = None
        <-> sourceRect = None \/ targetRect = None).
Proof.
  assert (B : forall d, getBezierPath (Some d) <> ""%string)
    by (intros d; apply generateBezierPath_not_empty).
  assert (S : forall d, getSmoothStepPath (Some d) radius <> ""%string)
    by (intros d; apply generateSmoothStepPath_not_empty).
  assert (A : forall d, getArrowPath (Some d) size offset <> ""%string)
    by (intros d; unfold getArrowPath; simpl; discriminate).
  split; [|split; [|split]].
  - destruct c as [d|]; split; intros H; trivial.
    + now elim (B d). + discriminate.
  - destruct c as [d|]; split; intros H; trivial.
    + now elim (S d). + discriminate.
  - destruct c as [d|]; split; intros H; trivial.
    + now elim (A d). + discriminate.
  - intros [sr|] [tr|]; split; intros H; auto.
    + discriminate. + destruct H; discriminate.
Qed.

Lemma truthy_number_zero :
  truthy_number 0 = false /\ truthy_number (-0) = false
  /\ truthy_number nan = false.
Proof. repeat split. Qed.

(** X21.  The preview has no coordinates, and so draws nothing, whenever the
    pointer is at abscissa or ordinate zero of the root element (of either
    sign, or not a number), whatever the drag; away from there it runs from
    the right centre of the drag source's rectangle to the pointer. *)
Theorem preview_needs_nonzero_pointer
    (sourceRect : option Rect) (r : Rect) (elementX elementY : float) :
  previewCoords sourceRect 0 elementY = None
  /\ previewCoords sourceRect elementX 0 = None
  /\ previewCoords sourceRect (-0) elementY = None
  /\ previewCoords sourceRect elementX (-0) = None
  /\ previewCoords sourceRect nan elementY = None
  /\ previewCoords sourceRect elementX nan = None
  /\ getBezierPath (previewCoords sourceRect elementX 0) = ""%string
  /\ (truthy_number elementX = true -> truthy_number elementY = true ->
      previewCoords (Some r) elementX elementY
      = Some {| Coords.source := {| x := right r; y := top r + height r / 2 |};
                Coords.target := {| x := elementX; y := elementY |} |}).
Proof.
  assert (Hx : forall v, truthy_number v = false ->
                 previewCoords sourceRect v elementY = None).
  { intros v Hv. unfold previewCoords. rewrite Hv.
    now destruct sourceRect. }
  assert (Hy : forall v, truthy_number v = false ->
                 previewCoords sourceRect elementX v = None).
  { intros v Hv. unfold previewCoords. rewrite Hv, andb_false_r.
    now destruct sourceRect. }
  destruct truthy_number_zero as [Z0 [Z1 Z2]].
  repeat (split; [now auto|]).
  split.
  - now rewrite (Hy 0 Z0).
  - intros H1 H2. unfold previewCoords. now rewrite H1, H2.
Qed.

Lemma preview_needs_nonzero_pointer_witness :
  truthy_number 120 = true /\ truthy_number 40 = true
  /\ previewCoords
       (Some {| width := 80; height := 20; left := 0; right := 80;
                top := 10; bottom := 30 |}) 120 40
     = Some {| Coords.source := {| x := 80; y := 10 + 20 / 2 |};
               Coords.target := {| x := 120; y := 40 |} |}.
Proof.
  split; [reflexivity|]. split; [reflexivity|].
  apply (preview_needs_nonzero_pointer
           None
           {| width := 80; height := 20; left := 0; right := 80;
              top := 10; bottom := 30 |} 120 40);
    reflexivity.
Defined.

(** X22.  No preview while idle: in every reachable state without a drag in
    progress the preview has no source rectangle and no coordinates, and its
    three paths are empty, wherever the pointer is and whatever is mounted. *)
Theorem no_preview_while_idle
    (mapping0 : Js.object) (cs : list Command)
    (root : option Rect) (nodeRect : string -> option Rect)
    (elementX elementY : float) (radius size offset : option float) :
  let st := run (create mapping0) cs in
  let c := previewCoords (previewSourceRect st root nodeRect)
                         elementX elementY in
  isDragging st = false ->
  previewSourceRect st root nodeRect = None
  /\ c = None
  /\ getBezierPath c = ""%string
  /\ getSmoothStepPath c radius = ""%string
  /\ getArrowPath c size offset = ""%string.
Proof.
  intros st c Hidle.
  assert (Hsrc : dragSource st = None)
    by (apply idle_has_no_source; trivial).
  assert (Hrect : previewSourceRect st root nodeRect = None)
    by (unfold previewSourceRect; now rewrite Hsrc).
  assert (Hc : c = None) by (unfold c; now rewrite Hrect).
  rewrite Hc. repeat split; trivial.
Qed.

Lemma no_preview_while_idle_witness :
  isDragging (run (create []) [StartConnection "france"; EndConnection "paris"])
  = false
  /\ getBezierPath
       (previewCoords
          (previewSourceRect
             (run (create []) [StartConnection "france"; EndConnection "paris"])
             (Some {| width := 300; height := 200; left := 0; right := 300;
                      top := 0; bottom := 200 |})
             (fun _ => Some {| width := 80; height := 20; left := 0;
                               right := 80; top := 10; bottom := 30 |}))
          120 40)
     = ""%string.
Proof.
  split; [reflexivity|].
  apply (no_preview_while_idle
           [] [StartConnection "france"; EndConnection "paris"]
           (Some {| width := 300; height := 200; left := 0; right := 300;
                    top := 0; bottom := 200 |})
           (fun _ => Some {| width := 80; height := 20; left := 0;
                             right := 80; top := 10; bottom := 30 |})
           120 40 None None None).
  reflexivity.
Defined.
